(** * imghdr: image type sniffing by magic bytes

    A shallow embedding of [src/imghdr.py] ([_read_bytes] and [what]) and
    the properties of its specification.

    The Python functions perform I/O (opening a path, calling [tell], [seek]
    and [read] on a file-like object) and may raise.  They are embedded in a
    small state-and-exception monad over a world made of a filesystem, a heap
    of file-like objects and a log of the operations performed. *)

From Stdlib Require Import Strings.Byte.
From stdpp Require Import gmap strings list fin_maps.

Set Default Proof Using "Type".

(** ** Byte strings *)

Abbreviation bytes := (list byte).

(** [header.startswith(prefix)] on Python [bytes]. *)
Fixpoint startswith (s prefix : bytes) {struct prefix} : bool :=
  match prefix with
  | [] => true
  | p :: prefix' =>
      match s with
      | [] => false
      | c :: s' => Byte.eqb c p && startswith s' prefix'
      end
  end.

(** [a == b] on Python [bytes]. *)
Fixpoint bytes_eqb (a b : bytes) : bool :=
  match a, b with
  | [], [] => true
  | x :: a', y :: b' => Byte.eqb x y && bytes_eqb a' b'
  | _, _ => false
  end.

(** [s[lo:hi]] for non-negative literal bounds: out-of-range bounds are
    clipped, never an error. *)
Definition slice (s : bytes) (lo hi : nat) : bytes :=
  take (hi - lo) (drop lo s).

(** Truthiness of a [bytes] value: [not header] is [is_empty header]. *)
Definition is_empty (s : bytes) : bool :=
  match s with
  | [] => true
  | _ :: _ => false
  end.

(** [data or b""]. *)
Definition or_empty (data : bytes) : bytes :=
  if is_empty data then [] else data.

(** ** The byte literals of [what] *)

Module Sig.
(** [b"\xff\xd8\xff"] *)
Definition jpeg : bytes := [xff; xd8; xff].
(** [b"\x89PNG\r\n\x1a\n"] *)
Definition png : bytes := [x89; x50; x4e; x47; x0d; x0a; x1a; x0a].
(** [b"GIF87a"] *)
Definition gif87a : bytes := [x47; x49; x46; x38; x37; x61].
(** [b"GIF89a"] *)
Definition gif89a : bytes := [x47; x49; x46; x38; x39; x61].
(** [b"BM"] *)
Definition bm : bytes := [x42; x4d].
(** [b"II*\x00"] *)
Definition tiff_le : bytes := [x49; x49; x2a; x00].
(** [b"MM\x00*"] *)
Definition tiff_be : bytes := [x4d; x4d; x00; x2a].
(** [b"RIFF"] *)
Definition riff : bytes := [x52; x49; x46; x46].
(** [b"WEBP"] *)
Definition webp : bytes := [x57; x45; x42; x50].
(** [b"\x00\x00\x01\x00"] *)
Definition ico : bytes := [x00; x00; x01; x00].
End Sig.

(** ** Results *)

(** The strings [what] can return. *)
Inductive label := Jpeg | Png | Gif | Bmp | Tiff | Webp | Ico.

Definition label_name (l : label) : string :=
  match l with
  | Jpeg => "jpeg"
  | Png => "png"
  | Gif => "gif"
  | Bmp => "bmp"
  | Tiff => "tiff"
  | Webp => "webp"
  | Ico => "ico"
  end.

(** ** The world: filesystem, file-like objects, log *)

(** The exceptions the modelled operations raise. *)
Inductive exn :=
  | FileNotFoundError
  | PermissionError
  | IsADirectoryError
  | ValueError            (* operation on a closed file *)
  | UnsupportedOperation  (* read on a stream not opened for reading *)
  | AttributeError.

Inductive outcome (A : Type) :=
  | Ok (a : A)
  | Raise (e : exn).
Arguments Ok {A} a.
Arguments Raise {A} e.

(** What a path names. *)
Inductive fsnode :=
  | Directory
  | RegularFile (content : bytes) (readable : bool).

(** An open file-like object: its content, its read position, whether it has
    the [seek] and [tell] attributes, whether it was opened for reading, and
    whether it has been closed. *)
Record filelike := FileLike {
  fl_data : bytes;
  fl_pos : nat;
  fl_has_seek : bool;
  fl_has_tell : bool;
  fl_readable : bool;
  fl_closed : bool
}.

Definition set_pos (f : filelike) (p : nat) : filelike :=
  {| fl_data := fl_data f; fl_pos := p;
     fl_has_seek := fl_has_seek f; fl_has_tell := fl_has_tell f;
     fl_readable := fl_readable f; fl_closed := fl_closed f |}.

(** A reference to a file-like object. *)
Definition ref := nat.

(** What a run is observed to do: calls on the environment ([open] and the
    methods of a file object), and the evaluation of a rule of [what] on
    the header. *)
Inductive event :=
  | EvOpen (p : string)
  | EvTell (o : ref)
  | EvSeek (o : ref) (pos : nat)
  | EvRead (o : ref) (n : nat)
  | EvRule (l : label).

Record world := World {
  fs : gmap string fsnode;
  heap : gmap ref filelike;
  log : list event
}.

Definition set_heap (w : world) (h : gmap ref filelike) : world :=
  {| fs := fs w; heap := h; log := log w |}.

Definition add_log (w : world) (e : event) : world :=
  {| fs := fs w; heap := heap w; log := log w ++ [e] |}.

(** ** The monad *)

Definition M (A : Type) : Type := world → outcome A * world.

Definition ret {A} (a : A) : M A := fun w => (Ok a, w).

Definition raise {A} (e : exn) : M A := fun w => (Raise e, w).

Definition bind {A B} (m : M A) (k : A → M B) : M B :=
  fun w =>
    match m w with
    | (Ok a, w') => k a w'
    | (Raise e, w') => (Raise e, w')
    end.

(** [try: body except Exception: handler]; the effects of [body] up to the
    exception stay. *)
Definition try_except {A} (body handler : M A) : M A :=
  fun w =>
    match body w with
    | (Ok a, w') => (Ok a, w')
    | (Raise _, w') => handler w'
    end.

Definition emit (e : event) : M unit := fun w => (Ok tt, add_log w e).

Notation "'let*' x ':=' m 'in' k" := (bind m (fun x => k))
  (at level 10, x name, m at level 100, k at level 200,
   format "'[v' 'let*'  x  ':='  m  'in' '/' k ']'").

(** ** Operations of the environment *)

(** [open(path, "rb")]: the content of the regular, readable file behind
    [path], or the exception of the failed attempt. *)
Definition fs_open (path : string) : M bytes :=
  fun w =>
    match fs w !! path with
    | None => (Raise FileNotFoundError, w)
    | Some Directory => (Raise IsADirectoryError, w)
    | Some (RegularFile _ false) => (Raise PermissionError, w)
    | Some (RegularFile content true) => (Ok content, w)
    end.

(** [with open(path, "rb") as f: return f.read(n)]; the handle is fresh, at
    position 0, and closed when the block is left. *)
Definition open_read (path : string) (n : nat) : M bytes :=
  let* _ := emit (EvOpen path) in
  let* content := fs_open path in
  ret (take n content).

(** Access to the object behind a reference. *)
Definition deref (o : ref) : M filelike :=
  fun w =>
    match heap w !! o with
    | Some f => (Ok f, w)
    | None => (Raise AttributeError, w)
    end.

Definition store (o : ref) (f : filelike) : M unit :=
  fun w => (Ok tt, set_heap w (<[o := f]> (heap w))).

(** [hasattr(file, "seek") and hasattr(file, "tell")]. *)
Definition has_seek_and_tell (o : ref) : M bool :=
  let* f := deref o in
  ret (fl_has_seek f && fl_has_tell f).

(** [file.tell()]. *)
Definition tell (o : ref) : M nat :=
  let* _ := emit (EvTell o) in
  let* f := deref o in
  if negb (fl_has_tell f) then raise AttributeError
  else if fl_closed f then raise ValueError
  else ret (fl_pos f).

(** [file.seek(pos)]. *)
Definition seek (o : ref) (pos : nat) : M unit :=
  let* _ := emit (EvSeek o pos) in
  let* f := deref o in
  if negb (fl_has_seek f) then raise AttributeError
  else if fl_closed f then raise ValueError
  else store o (set_pos f pos).

(** [file.read(n)]: at most [n] bytes from the current position, which
    advances by the number of bytes read. *)
Definition read (o : ref) (n : nat) : M bytes :=
  let* _ := emit (EvRead o n) in
  let* f := deref o in
  if fl_closed f then raise ValueError
  else if negb (fl_readable f) then raise UnsupportedOperation
  else
    let data := take n (drop (fl_pos f) (fl_data f)) in
    let* _ := store o (set_pos f (fl_pos f + length data)) in
    ret data.

(** ** [_read_bytes] *)

(** The [file] argument of [what]. *)
Inductive source :=
  | SNone
  | SBytes (b : bytes)
  | SPath (p : string)
  | SFile (o : ref).

(** Lines 25-28: [pos] stays [None] unless the object has both [seek] and
    [tell]; then the position is recorded and the object rewound. *)
Definition save_and_rewind (o : ref) : M (option nat) :=
  let* st := has_seek_and_tell o in
  if st then
    let* p := tell o in
    let* _ := seek o 0 in
    ret (Some p)
  else ret None.

(** Lines 30-31: [if pos is not None: file.seek(pos)]. *)
Definition restore (o : ref) (pos : option nat) : M unit :=
  match pos with
  | Some p => seek o p
  | None => ret tt
  end.

Definition _read_bytes (file : source) (n : nat) : M bytes :=
  match file with
  | SNone => ret []
  | SBytes b => ret (take n b)
  | SPath p => open_read p n
  | SFile o =>
      try_except
        (let* pos := save_and_rewind o in
         let* data := read o n in
         let* _ := restore o pos in
         ret (or_empty data))
        (ret [])
  end.

(** ** [what] *)

(** Evaluation of the condition of one [if] of the rule chain.  The
    condition itself is pure; the log entry only records that the chain got
    as far as this rule, so that "which rules were evaluated" can be read
    off a run. *)
Definition rule (l : label) (cond : bool) : M bool :=
  let* _ := emit (EvRule l) in ret cond.

Definition get_header (file : source) (h : option bytes) : M bytes :=
  match h with
  | Some h => ret h
  | None => _read_bytes file 64
  end.

Definition what (file : source) (h : option bytes) : M (option label) :=
  let* header := get_header file h in
  if is_empty header then ret None else
  let* c := rule Jpeg (startswith header Sig.jpeg) in
  if c then ret (Some Jpeg) else
  let* c := rule Png (startswith header Sig.png) in
  if c then ret (Some Png) else
  let* c := rule Gif (startswith header Sig.gif87a || startswith header Sig.gif89a) in
  if c then ret (Some Gif) else
  let* c := rule Bmp (startswith header Sig.bm) in
  if c then ret (Some Bmp) else
  let* c := rule Tiff (startswith header Sig.tiff_le || startswith header Sig.tiff_be) in
  if c then ret (Some Tiff) else
  let* c := rule Webp (bytes_eqb (slice header 0 4) Sig.riff
                       && bytes_eqb (slice header 8 12) Sig.webp) in
  if c then ret (Some Webp) else
  let* c := rule Ico (startswith header Sig.ico) in
  if c then ret (Some Ico) else
  ret None.

(** ** The signature table of the specification

    Section 4.2 of the specification describes the matcher as an ordered
    table of rules, each a predicate on the prefix paired with a label, the
    first match winning.  This module follows those words, independently of
    the [if] chain of [what]: patterns given in hexadecimal are written as
    byte values, patterns given as ASCII text are converted from text, and
    a pattern at an offset is compared byte by byte by index. *)

Module Spec.

(** The bytes of [pat] stand in [prefix] at offsets [off], [off+1], ... *)
Fixpoint match_at (prefix : bytes) (off : nat) (pat : bytes) : bool :=
  match pat with
  | [] => true
  | c :: pat' =>
      match prefix !! off with
      | Some b => Byte.eqb b c && match_at prefix (S off) pat'
      | None => false
      end
  end.

Definition starts_with (pat prefix : bytes) : bool := match_at prefix 0 pat.

Definition ascii (s : string) : bytes := String.list_byte_of_string s.

Definition rules : list (label * (bytes → bool)) :=
  [ (Jpeg, starts_with [xff; xd8; xff]);
    (Png, starts_with [x89; x50; x4e; x47; x0d; x0a; x1a; x0a]);
    (Gif, λ p, starts_with (ascii "GIF87a") p || starts_with (ascii "GIF89a") p);
    (Bmp, starts_with (ascii "BM"));
    (Tiff, λ p, starts_with [x49; x49; x2a; x00] p
                || starts_with [x4d; x4d; x00; x2a] p);
    (Webp, λ p, match_at p 0 (ascii "RIFF") && match_at p 8 (ascii "WEBP"));
    (Ico, starts_with [x00; x00; x01; x00]) ].

(** The label of the first rule whose predicate holds, if any. *)
Fixpoint first_match (rs : list (label * (bytes → bool))) (prefix : bytes)
  : option label :=
  match rs with
  | [] => None
  | (l, pred) :: rs' => if pred prefix then Some l else first_match rs' prefix
  end.

(** The rules whose predicate is evaluated: all up to and including the
    first that holds. *)
Fixpoint evaluated (rs : list (label * (bytes → bool))) (prefix : bytes)
  : list label :=
  match rs with
  | [] => []
  | (l, pred) :: rs' => l :: (if pred prefix then [] else evaluated rs' prefix)
  end.

Definition classify (prefix : bytes) : option label :=
  first_match rules prefix.

(** Rules evaluated by the matcher, with the precondition on an empty
    prefix. *)
Definition consulted (prefix : bytes) : list label :=
  if is_empty prefix then [] else evaluated rules prefix.

(** The closed set of result strings. *)
Definition labels : list string :=
  ["jpeg"; "png"; "gif"; "bmp"; "tiff"; "webp"; "ico"].

End Spec.

(** ** Observations on a run *)

Definition result {A} (r : outcome A * world) : outcome A := r.1.
Definition final {A} (r : outcome A * world) : world := r.2.

Definition add_events (w : world) (es : list event) : world :=
  {| fs := fs w; heap := heap w; log := log w ++ es |}.

(** Whether an event is a call on the environment, as opposed to the
    evaluation of a rule on the header. *)
Definition is_io (e : event) : bool :=
  match e with
  | EvRule _ => false
  | _ => true
  end.

(** ** Sample worlds *)

Module Examples.

(** Nothing on disk, no open object. *)
Definition bare : world := World ∅ ∅ [].

(** A PNG file that the process may not read. *)
Definition locked : world :=
  World {[ "private.png" := RegularFile Sig.png false ]} ∅ [].

(** A readable PNG file. *)
Definition on_disk : world :=
  World {[ "logo.png" := RegularFile (Sig.png ++ [x00; x00; x00; x0d]) true ]}
    ∅ [].

(** The object of [open(path, "wb")] after the PNG signature was written:
    it has [seek] and [tell], stands at offset 8, and its [read] raises. *)
Definition write_only : filelike :=
  {| fl_data := Sig.png; fl_pos := 8;
     fl_has_seek := true; fl_has_tell := true;
     fl_readable := false; fl_closed := false |}.

Definition writing : world := World ∅ {[ 0 := write_only ]} [].

(** The object of [open(path, "rb")] on a GIF, after 6 bytes were read. *)
Definition gif_stream : filelike :=
  {| fl_data := Sig.gif89a ++ [x01; x00; x01; x00]; fl_pos := 6;
     fl_has_seek := true; fl_has_tell := true;
     fl_readable := true; fl_closed := false |}.

Definition reading : world := World ∅ {[ 0 := gif_stream ]} [].

(** The same object once closed: every method raises. *)
Definition closed_stream : filelike :=
  {| fl_data := Sig.gif89a ++ [x01; x00; x01; x00]; fl_pos := 6;
     fl_has_seek := true; fl_has_tell := true;
     fl_readable := true; fl_closed := true |}.

Definition after_close : world := World ∅ {[ 0 := closed_stream ]} [].

End Examples.

(** The calls on the environment logged between world [w] and a later world
    [w']. *)
Definition calls (w w' : world) : list event :=
  filter (λ e, is_io e = true) (drop (length (log w)) (log w')).

(** ** The conditions of the rule chain, by label *)

(** The condition of the [if] that returns [l] (lines 47, 50, 53, 56, 59, 62
    and 65 of [what]). *)
Definition rule_cond (l : label) (header : bytes) : bool :=
  match l with
  | Jpeg => startswith header Sig.jpeg
  | Png => startswith header Sig.png
  | Gif => startswith header Sig.gif87a || startswith header Sig.gif89a
  | Bmp => startswith header Sig.bm
  | Tiff => startswith header Sig.tiff_le || startswith header Sig.tiff_be
  | Webp => bytes_eqb (slice header 0 4) Sig.riff
            && bytes_eqb (slice header 8 12) Sig.webp
  | Ico => startswith header Sig.ico
  end.

(** The labels in the order of their [if]s. *)
Definition rule_order : list label := [Jpeg; Png; Gif; Bmp; Tiff; Webp; Ico].

(** ** More sample worlds *)

Module Streams.

(** A readable object with neither [seek] nor [tell] (a pipe or a socket
    file), holding a JPEG after two bytes of something else were consumed. *)
Definition pipe : filelike :=
  {| fl_data := [x0d; x0a] ++ Sig.jpeg ++ [xe0; x00; x10];
     fl_pos := 2;
     fl_has_seek := false; fl_has_tell := false;
     fl_readable := true; fl_closed := false |}.

Definition piping : world := World ∅ {[ 7 := pipe ]} [].

(** Two open objects and two files. *)
Definition busy : world :=
  World {[ "logo.png" := RegularFile (Sig.png ++ [x00; x00; x00; x0d]) true;
           "private.png" := RegularFile Sig.png false;
           "images" := Directory ]}
        {[ 0 := Examples.gif_stream; 7 := pipe ]} [].

End Streams.

(** Unfolds the operations on file objects down to lookups in the heap. *)
Ltac unfold_io :=
  unfold _read_bytes, try_except, save_and_rewind, restore, open_read;
  unfold has_seek_and_tell, tell, seek, read, emit, deref, store, fs_open,
    raise, ret, bind;
  simpl.

(** * Properties *)

(** ** Byte strings *)

Lemma byte_eqb_eq (x y : byte) : Byte.eqb x y = true ↔ x = y.
Proof. split; [apply byte_dec_bl | apply byte_dec_lb]. Qed.

Lemma startswith_prefix (s p : bytes) :
  startswith s p = true ↔ ∃ rest, s = p ++ rest.
Proof.
  revert s; induction p as [|c p IH]; intros s; simpl.
  - split; [intros _; by exists s | done].
  - destruct s as [|d s].
    + split; [done | intros [rest ?]; done].
    + rewrite andb_true_iff, byte_eqb_eq, IH. split.
      * intros [-> [rest ->]]. by exists rest.
      * intros [rest [= -> ->]]. eauto.
Qed.

Lemma bytes_eqb_eq (a b : bytes) : bytes_eqb a b = true ↔ a = b.
Proof.
  revert b; induction a as [|x a IH]; intros [|y b]; simpl;
    [done | split; done | split; done |].
  rewrite andb_true_iff, byte_eqb_eq, IH. split.
  - by intros [-> ->].
  - by intros [= -> ->].
Qed.

Lemma startswith_short (s p : bytes) :
  length s < length p → startswith s p = false.
Proof.
  intros Hlen. apply not_true_is_false. rewrite startswith_prefix.
  intros [rest ->]. rewrite length_app in Hlen. lia.
Qed.

Lemma slice_length (s : bytes) (lo hi : nat) :
  length (slice s lo hi) = (hi - lo) `min` (length s - lo).
Proof. unfold slice. by rewrite length_take, length_drop. Qed.

Lemma slice_short (s pat : bytes) (lo hi : nat) :
  lo < hi → length pat = hi - lo → length s < hi →
  bytes_eqb (slice s lo hi) pat = false.
Proof.
  intros Hlo Hpat Hlen. apply not_true_is_false. rewrite bytes_eqb_eq.
  intros Heq. apply (f_equal length) in Heq. rewrite slice_length in Heq. lia.
Qed.

Lemma startswith_take (n : nat) (s p : bytes) :
  length p ≤ n → startswith (take n s) p = startswith s p.
Proof.
  revert n s; induction p as [|c p IH]; intros n s Hn; simpl in *; [done|].
  destruct n as [|n]; [lia|]. destruct s as [|d s]; simpl; [done|].
  rewrite IH by lia. done.
Qed.

Lemma slice_take (n : nat) (s : bytes) (lo hi : nat) :
  hi ≤ n → slice (take n s) lo hi = slice s lo hi.
Proof.
  intros Hn. unfold slice.
  destruct (decide (lo ≤ hi)) as [Hle|Hgt].
  - rewrite !take_drop_commute, take_take. do 2 f_equal. lia.
  - by replace (hi - lo) with 0 by lia.
Qed.

Lemma is_empty_take (n : nat) (s : bytes) :
  0 < n → is_empty (take n s) = is_empty s.
Proof. destruct n; [lia|]. by destruct s. Qed.

(** The two readings of "starts with" and "bytes at offset" agree. *)
Lemma match_at_drop (s pat : bytes) (off : nat) :
  Spec.match_at s off pat = startswith (drop off s) pat.
Proof.
  revert off; induction pat as [|c pat IH]; intros off; simpl; [done|].
  destruct (s !! off) as [b|] eqn:Hb.
  - rewrite (drop_S _ _ _ Hb), IH. done.
  - rewrite drop_ge; [done|]. by apply lookup_ge_None.
Qed.

Lemma starts_with_startswith (s pat : bytes) :
  Spec.starts_with pat s = startswith s pat.
Proof. unfold Spec.starts_with. by rewrite match_at_drop. Qed.

Lemma startswith_slice (s pat : bytes) (lo : nat) :
  startswith (drop lo s) pat = bytes_eqb (slice s lo (lo + length pat)) pat.
Proof.
  unfold slice. replace (lo + length pat - lo) with (length pat) by lia.
  generalize (drop lo s) as t. clear s lo.
  induction pat as [|c pat IH]; intros t; simpl.
  - done.
  - destruct t as [|d t]; simpl; [done|]. by rewrite IH.
Qed.

(** ** Worlds and logs *)

Lemma add_events_nil (w : world) : add_events w [] = w.
Proof. destruct w; unfold add_events; simpl. by rewrite app_nil_r. Qed.

Lemma add_events_app (w : world) (es es' : list event) :
  add_events (add_events w es) es' = add_events w (es ++ es').
Proof. unfold add_events; simpl. by rewrite app_assoc. Qed.

(** ** The [if] chain of [what] is the table of the specification *)

(** The predicates of the table, rule by rule, are the conditions of the
    source. *)
Lemma spec_jpeg (p : bytes) :
  Spec.starts_with [xff; xd8; xff] p = startswith p Sig.jpeg.
Proof. apply starts_with_startswith. Qed.

Lemma spec_png (p : bytes) :
  Spec.starts_with [x89; x50; x4e; x47; x0d; x0a; x1a; x0a] p
  = startswith p Sig.png.
Proof. apply starts_with_startswith. Qed.

Lemma spec_gif (p : bytes) :
  Spec.starts_with (Spec.ascii "GIF87a") p || Spec.starts_with (Spec.ascii "GIF89a") p
  = startswith p Sig.gif87a || startswith p Sig.gif89a.
Proof. by rewrite !starts_with_startswith. Qed.

Lemma spec_bmp (p : bytes) :
  Spec.starts_with (Spec.ascii "BM") p = startswith p Sig.bm.
Proof. apply starts_with_startswith. Qed.

Lemma spec_tiff (p : bytes) :
  Spec.starts_with [x49; x49; x2a; x00] p || Spec.starts_with [x4d; x4d; x00; x2a] p
  = startswith p Sig.tiff_le || startswith p Sig.tiff_be.
Proof. by rewrite !starts_with_startswith. Qed.

Lemma spec_webp (p : bytes) :
  Spec.match_at p 0 (Spec.ascii "RIFF") && Spec.match_at p 8 (Spec.ascii "WEBP")
  = bytes_eqb (slice p 0 4) Sig.riff && bytes_eqb (slice p 8 12) Sig.webp.
Proof.
  rewrite !match_at_drop.
  change (Spec.ascii "RIFF") with Sig.riff.
  change (Spec.ascii "WEBP") with Sig.webp.
  by rewrite !startswith_slice.
Qed.

Lemma spec_ico (p : bytes) :
  Spec.starts_with [x00; x00; x01; x00] p = startswith p Sig.ico.
Proof. apply starts_with_startswith. Qed.

(** A run of [what]: once the header is obtained, the result is the first
    match of the table and the log grows by the rules consulted, in the
    order of the table. *)
Lemma what_run (file : source) (h : option bytes) (w : world) :
  what file h w =
  match get_header file h w with
  | (Ok header, w') =>
      (Ok (Spec.classify header),
       add_events w' (EvRule <$> Spec.consulted header))
  | (Raise e, w') => (Raise e, w')
  end.
Proof.
  unfold what, bind at 1.
  destruct (get_header file h w) as [[header|e] w']; [|done].
  unfold Spec.classify, Spec.consulted.
  destruct (is_empty header) eqn:Hne.
  { destruct header; [|done]. simpl. by rewrite add_events_nil. }
  unfold Spec.rules, Spec.first_match, Spec.evaluated.
  rewrite spec_jpeg, spec_png, spec_gif, spec_bmp, spec_tiff, spec_webp,
    spec_ico.
  generalize (startswith header Sig.jpeg), (startswith header Sig.png),
    (startswith header Sig.gif87a || startswith header Sig.gif89a),
    (startswith header Sig.bm),
    (startswith header Sig.tiff_le || startswith header Sig.tiff_be),
    (bytes_eqb (slice header 0 4) Sig.riff
     && bytes_eqb (slice header 8 12) Sig.webp),
    (startswith header Sig.ico).
  clear. unfold rule, bind, emit, ret, add_log, add_events.
  intros c1 c2 c3 c4 c5 c6 c7.
  destruct c1; simpl; [done|].
  destruct c2; simpl; [by rewrite <-!app_assoc|].
  destruct c3; simpl; [by rewrite <-!app_assoc|].
  destruct c4; simpl; [by rewrite <-!app_assoc|].
  destruct c5; simpl; [by rewrite <-!app_assoc|].
  destruct c6; simpl; [by rewrite <-!app_assoc|].
  destruct c7; simpl; by rewrite <-!app_assoc.
Qed.

(** ** The table: first match, and what it looks at *)

Lemma first_match_Some (rs : list (label * (bytes → bool))) (p : bytes) (l : label) :
  Spec.first_match rs p = Some l ↔
  ∃ rs1 pred rs2,
    rs = rs1 ++ (l, pred) :: rs2 ∧ pred p = true
    ∧ Forall (λ r, r.2 p = false) rs1.
Proof.
  induction rs as [|[l' pred'] rs IH]; simpl.
  - split; [done|]. intros (rs1 & ? & ? & Heq & _). by destruct rs1.
  - destruct (pred' p) eqn:Hp.
    + split.
      * intros [= ->]. by exists [], pred', rs.
      * intros ([|[l0 pred0] rs1] & pred & rs2 & Heq & Hpred & Hall).
        -- by injection Heq as -> _ _.
        -- injection Heq as -> -> _. apply Forall_cons in Hall as [Hf _].
           simpl in Hf. congruence.
    + rewrite IH. split.
      * intros (rs1 & pred & rs2 & -> & Hpred & Hall).
        exists ((l', pred') :: rs1), pred, rs2. split_and!; [done..|].
        by constructor.
      * intros ([|[l0 pred0] rs1] & pred & rs2 & Heq & Hpred & Hall).
        -- injection Heq as _ <- _. congruence.
        -- injection Heq as _ _ ->. apply Forall_cons in Hall as [_ Hall].
           by exists rs1, pred, rs2.
Qed.

Lemma first_match_None (rs : list (label * (bytes → bool))) (p : bytes) :
  Spec.first_match rs p = None ↔ Forall (λ r, r.2 p = false) rs.
Proof.
  induction rs as [|[l' pred'] rs IH]; simpl.
  - split; [by constructor | done].
  - rewrite Forall_cons. simpl. destruct (pred' p).
    + split; [done | by intros [? _]].
    + rewrite IH. split; [done | by intros [_ ?]].
Qed.

(** Two prefixes on which all predicates of the table agree are classified
    alike, after the same rules. *)
Lemma first_match_ext (rs : list (label * (bytes → bool))) (p q : bytes) :
  Forall (λ r, r.2 p = r.2 q) rs →
  Spec.first_match rs p = Spec.first_match rs q
  ∧ Spec.evaluated rs p = Spec.evaluated rs q.
Proof.
  induction 1 as [|[l pred] rs Hpq _ [IH1 IH2]]; simpl in *; [done|].
  rewrite Hpq, IH1, IH2. done.
Qed.

(** The rules consulted are an initial segment of the table's labels. *)
Lemma evaluated_prefix (rs : list (label * (bytes → bool))) (p : bytes) :
  Spec.evaluated rs p `prefix_of` rs.*1.
Proof.
  induction rs as [|[l pred] rs IH]; simpl; [done|].
  destruct (pred p).
  - by apply (prefix_cons l), prefix_nil.
  - by apply prefix_cons.
Qed.

(** No rule looks beyond offset 11. *)
Lemma rules_take (n : nat) (b : bytes) :
  12 ≤ n → Forall (λ r, r.2 (take n b) = r.2 b) Spec.rules.
Proof.
  intros Hn. unfold Spec.rules. repeat constructor; cbn [snd].
  - rewrite !spec_jpeg. apply startswith_take. simpl; lia.
  - rewrite !spec_png. apply startswith_take. simpl; lia.
  - rewrite !spec_gif. by rewrite !startswith_take by (simpl; lia).
  - rewrite !spec_bmp. apply startswith_take. simpl; lia.
  - rewrite !spec_tiff. by rewrite !startswith_take by (simpl; lia).
  - rewrite !spec_webp. by rewrite !slice_take by lia.
  - rewrite !spec_ico. apply startswith_take. simpl; lia.
Qed.

Lemma classify_take (n : nat) (b : bytes) :
  12 ≤ n → Spec.classify (take n b) = Spec.classify b.
Proof. intros Hn. by apply first_match_ext, rules_take. Qed.

Lemma consulted_take (n : nat) (b : bytes) :
  12 ≤ n → Spec.consulted (take n b) = Spec.consulted b.
Proof.
  intros Hn. unfold Spec.consulted. rewrite is_empty_take by lia.
  destruct (is_empty b); [done|]. by apply first_match_ext, rules_take.
Qed.

Lemma label_name_closed (l : label) : label_name l ∈ Spec.labels.
Proof. unfold Spec.labels. destruct l; simpl; set_solver. Qed.

(** A prefix shorter than every signature is not classified. *)
Lemma classify_short (b : bytes) : length b < 2 → Spec.classify b = None.
Proof.
  intros Hlen. destruct b as [|c [|d b]]; simpl in Hlen; [done| |lia].
  unfold Spec.classify. apply first_match_None. unfold Spec.rules.
  repeat constructor; cbn [snd];
    rewrite ?spec_jpeg, ?spec_png, ?spec_gif, ?spec_bmp, ?spec_tiff,
      ?spec_webp, ?spec_ico;
    rewrite ?startswith_short by (simpl; lia); try done.
  rewrite (slice_short _ _ 0 4) by (simpl; lia). done.
Qed.

(** ** Runs of [_read_bytes] on a file object *)

Lemma or_empty_id (data : bytes) : or_empty data = data.
Proof. by destruct data. Qed.

(** [_read_bytes] on an open, readable object with [seek] and [tell]: the
    first [n] bytes of the content, whatever the position, which is the same
    afterwards; four calls are made on the object. *)
Lemma read_bytes_seekable (o : ref) (f : filelike) (w : world) (n : nat) :
  heap w !! o = Some f →
  fl_has_seek f = true → fl_has_tell f = true →
  fl_closed f = false → fl_readable f = true →
  _read_bytes (SFile o) n w
  = (Ok (take n (fl_data f)),
     add_events w [EvTell o; EvSeek o 0; EvRead o n; EvSeek o (fl_pos f)]).
Proof.
  intros Hobj Hseek Htell Hopen Hrd. unfold_io.
  repeat (progress
            (rewrite ?Hobj, ?lookup_insert_eq, ?Hseek, ?Htell, ?Hopen, ?Hrd;
             simpl)).
  rewrite or_empty_id. f_equal.
  unfold set_heap, add_log, add_events; simpl. f_equal.
  - rewrite !insert_insert_eq. destruct f; simpl in *. by apply insert_id.
  - by rewrite <-!app_assoc.
Qed.

(** The same object when [read] raises because it was not opened for
    reading: the exception is caught after the rewind and before the
    restoring [seek], so the object is left at position 0. *)
Lemma read_bytes_unreadable (o : ref) (f : filelike) (w : world) (n : nat) :
  heap w !! o = Some f →
  fl_has_seek f = true → fl_has_tell f = true →
  fl_closed f = false → fl_readable f = false →
  _read_bytes (SFile o) n w
  = (Ok [],
     set_heap (add_events w [EvTell o; EvSeek o 0; EvRead o n])
       (<[o := set_pos f 0]> (heap w))).
Proof.
  intros Hobj Hseek Htell Hopen Hrd. unfold_io.
  repeat (progress
            (rewrite ?Hobj, ?lookup_insert_eq, ?Hseek, ?Htell, ?Hopen, ?Hrd;
             simpl)).
  f_equal.
  unfold set_heap, add_log, add_events; simpl. f_equal.
  by rewrite <-!app_assoc.
Qed.

(** [_read_bytes] on a path. *)
Lemma read_bytes_path (p : string) (w : world) (n : nat) :
  _read_bytes (SPath p) n w
  = (match fs w !! p with
     | None => Raise FileNotFoundError
     | Some Directory => Raise IsADirectoryError
     | Some (RegularFile _ false) => Raise PermissionError
     | Some (RegularFile content true) => Ok (take n content)
     end,
     add_events w [EvOpen p]).
Proof.
  unfold_io. change (add_log w (EvOpen p)) with (add_events w [EvOpen p]).
  by destruct (fs w !! p) as [[|content []]|].
Qed.


(** ** Runs of [what] by kind of source *)

Lemma what_override (file : source) (h : bytes) (w : world) :
  what file (Some h) w
  = (Ok (Spec.classify h), add_events w (EvRule <$> Spec.consulted h)).
Proof. by rewrite what_run. Qed.

Lemma what_bytes (b : bytes) (w : world) :
  what (SBytes b) None w
  = (Ok (Spec.classify b), add_events w (EvRule <$> Spec.consulted b)).
Proof.
  rewrite what_run. simpl. unfold ret.
  by rewrite classify_take, consulted_take by lia.
Qed.

Lemma what_path (p : string) (w : world) :
  what (SPath p) None w
  = match fs w !! p with
    | None => (Raise FileNotFoundError, add_events w [EvOpen p])
    | Some Directory => (Raise IsADirectoryError, add_events w [EvOpen p])
    | Some (RegularFile _ false) =>
        (Raise PermissionError, add_events w [EvOpen p])
    | Some (RegularFile content true) =>
        (Ok (Spec.classify content),
         add_events w (EvOpen p :: (EvRule <$> Spec.consulted content)))
    end.
Proof.
  rewrite what_run. unfold get_header. rewrite read_bytes_path.
  destruct (fs w !! p) as [[|content []]|]; try done.
  by rewrite classify_take, consulted_take, add_events_app by lia.
Qed.

(** On an open, readable object with [seek] and [tell], [what] classifies
    the start of the content and leaves filesystem and heap, hence the read
    position, as they were. *)
Lemma what_seekable (o : ref) (f : filelike) (w : world) :
  heap w !! o = Some f →
  fl_has_seek f = true → fl_has_tell f = true →
  fl_closed f = false → fl_readable f = true →
  what (SFile o) None w
  = (Ok (Spec.classify (fl_data f)),
     add_events w
       ([EvTell o; EvSeek o 0; EvRead o 64; EvSeek o (fl_pos f)]
        ++ (EvRule <$> Spec.consulted (fl_data f)))).
Proof.
  intros Hobj Hseek Htell Hopen Hrd.
  rewrite what_run. unfold get_header.
  rewrite (read_bytes_seekable o f w 64 Hobj Hseek Htell Hopen Hrd).
  by rewrite classify_take, consulted_take, add_events_app by lia.
Qed.

(** On such an object whose [read] raises, [what] returns the no-match value
    and leaves the object at offset 0, whatever its offset was. *)
Lemma what_unreadable_stream (o : ref) (f : filelike) (w : world) :
  heap w !! o = Some f →
  fl_has_seek f = true → fl_has_tell f = true →
  fl_closed f = false → fl_readable f = false →
  result (what (SFile o) None w) = Ok None
  ∧ heap (final (what (SFile o) None w)) !! o = Some (set_pos f 0).
Proof.
  intros Hobj Hseek Htell Hopen Hrd.
  rewrite what_run. unfold get_header.
  rewrite (read_bytes_unreadable o f w 64 Hobj Hseek Htell Hopen Hrd).
  unfold result, final; simpl. split; [done|]. apply lookup_insert_eq.
Qed.

(** Two calls in a row on such an object give the same result, and the
    object is where it was after each. *)
Lemma what_seekable_twice (o : ref) (f : filelike) (w : world) :
  heap w !! o = Some f →
  fl_has_seek f = true → fl_has_tell f = true →
  fl_closed f = false → fl_readable f = true →
  let r1 := what (SFile o) None w in
  let r2 := what (SFile o) None (final r1) in
  result r1 = result r2
  ∧ heap (final r1) !! o = Some f ∧ heap (final r2) !! o = Some f.
Proof.
  intros Hobj Hseek Htell Hopen Hrd. simpl.
  rewrite (what_seekable o f w) by done. unfold final, result; simpl.
  rewrite (what_seekable o f) by done. done.
Qed.

(** * The claims of the specification *)

(** C1 (the code departs from the claim).  A path that names no file, or a
    file the process may not read, makes [what] raise [FileNotFoundError],
    respectively [PermissionError]: [open] is called outside the [try] of
    [_read_bytes].  The same kind of failure on a file object (a closed
    stream) is caught by that [try] and gives the no-match value. *)
Theorem what_unreadable_path_raises :
  what (SPath "missing.png") None Examples.bare
  = (Raise FileNotFoundError, add_events Examples.bare [EvOpen "missing.png"])
  ∧ what (SPath "private.png") None Examples.locked
    = (Raise PermissionError, add_events Examples.locked [EvOpen "private.png"])
  ∧ result (what (SFile 0) None Examples.after_close) = Ok None.
Proof. split_and!; vm_compute; reflexivity. Qed.

(** Every path that names no file makes [what] raise. *)
Lemma what_missing_path (p : string) (w : world) :
  fs w !! p = None →
  what (SPath p) None w = (Raise FileNotFoundError, add_events w [EvOpen p]).
Proof. intros Hp. by rewrite what_path, Hp. Qed.

(** C2 (the code departs from the claim).  On an object with [seek] and
    [tell] whose [read] raises, [what] returns the no-match value and leaves
    the object at offset 0 instead of the offset 8 it had before the call:
    the restoring [seek] is skipped by the exception. *)
Theorem what_failed_read_loses_position :
  let r := what (SFile 0) None Examples.writing in
  result r = Ok None
  ∧ fl_pos <$> heap Examples.writing !! 0 = Some 8
  ∧ fl_pos <$> heap (final r) !! 0 = Some 0.
Proof. split_and!; vm_compute; reflexivity. Qed.

(** C3.  Whatever the source, once a header is obtained [what] returns the
    label of the first rule of the table jpeg, png, gif, bmp, tiff, webp,
    ico whose predicate holds on it, and the no-match value when none
    holds; the rules consulted are an initial segment of the table, in its
    order; a label returned is one of the seven names. *)
Theorem what_first_match (file : source) (h : option bytes) (w w' : world)
    (header : bytes) :
  get_header file h w = (Ok header, w') →
  ∃ r : option label,
    what file h w = (Ok r, add_events w' (EvRule <$> Spec.consulted header))
    ∧ Spec.rules.*1 = [Jpeg; Png; Gif; Bmp; Tiff; Webp; Ico]
    ∧ Spec.consulted header `prefix_of` Spec.rules.*1
    ∧ (∀ l, r = Some l →
         label_name l ∈ Spec.labels
         ∧ ∃ rs1 pred rs2,
             Spec.rules = rs1 ++ (l, pred) :: rs2 ∧ pred header = true
             ∧ Forall (λ r, r.2 header = false) rs1)
    ∧ (r = None → Forall (λ r, r.2 header = false) Spec.rules).
Proof.
  intros Hh. exists (Spec.classify header). split_and!.
  - by rewrite what_run, Hh.
  - done.
  - unfold Spec.consulted. destruct (is_empty header).
    + apply prefix_nil.
    + apply evaluated_prefix.
  - intros l Hl. split; [apply label_name_closed|].
    by apply first_match_Some.
  - intros Hnone. by apply first_match_None.
Qed.

Lemma what_first_match_witness :
  ∃ r : option label,
    what (SBytes (Sig.bm ++ [x36; x00])) None Examples.bare
    = (Ok r, add_events Examples.bare
               (EvRule <$> Spec.consulted (Sig.bm ++ [x36; x00])))
    ∧ Spec.rules.*1 = [Jpeg; Png; Gif; Bmp; Tiff; Webp; Ico]
    ∧ Spec.consulted (Sig.bm ++ [x36; x00]) `prefix_of` Spec.rules.*1
    ∧ (∀ l, r = Some l →
         label_name l ∈ Spec.labels
         ∧ ∃ rs1 pred rs2,
             Spec.rules = rs1 ++ (l, pred) :: rs2
             ∧ pred (Sig.bm ++ [x36; x00]) = true
             ∧ Forall (λ r, r.2 (Sig.bm ++ [x36; x00]) = false) rs1)
    ∧ (r = None → Forall (λ r, r.2 (Sig.bm ++ [x36; x00]) = false) Spec.rules).
Proof.
  apply (what_first_match (SBytes (Sig.bm ++ [x36; x00])) None
           Examples.bare Examples.bare).
  reflexivity.
Defined.

(** C4.  With an override prefix [h], [what] uses [h] itself as the header
    without touching the world, so its run is the same for every source, the
    absent one included; filesystem and heap are as before and the events
    logged are rule evaluations only. *)
Theorem what_override_ignores_source (file file' : source) (h : bytes)
    (w : world) :
  get_header file (Some h) w = (Ok h, w)
  ∧ what file (Some h) w = what file' (Some h) w
  ∧ what file (Some h) w = what SNone (Some h) w
  ∧ ∃ es, final (what file (Some h) w) = add_events w es
          ∧ Forall (λ e, is_io e = false) es.
Proof.
  split_and!; [done | by rewrite !what_override.. |].
  exists (EvRule <$> Spec.consulted h). split.
  - by rewrite what_override.
  - by apply Forall_fmap, Forall_true.
Qed.

(** C5.  The matching stage never raises: an exception of [what] is an
    exception of the reading stage, and with an override prefix [what]
    always returns.  A header shorter than a pattern fails the pattern's
    [startswith], and a header that ends before [hi] fails the comparison
    of its slice [lo:hi] with a pattern of that width. *)
Theorem what_matching_total :
  (∀ file h w e,
     result (what file h w) = Raise e →
     result (get_header file h w) = Raise e)
  ∧ (∀ file header w, ∃ r, result (what file (Some header) w) = Ok r)
  ∧ (∀ header pat,
       length header < length pat → startswith header pat = false)
  ∧ (∀ header pat lo hi,
       lo < hi → length pat = hi - lo → length header < hi →
       bytes_eqb (slice header lo hi) pat = false).
Proof.
  split_and!.
  - intros file h w e. rewrite what_run. unfold result.
    destruct (get_header file h w) as [[header|e'] w']; simpl;
      [discriminate | congruence].
  - intros file header w. rewrite what_override. by eexists.
  - apply startswith_short.
  - intros header pat lo hi. apply slice_short.
Qed.

Lemma what_matching_total_witness :
  startswith [x47; x49; x46] Sig.gif89a = false
  ∧ bytes_eqb (slice (Sig.riff ++ [x24; x00; x00; x00; x57; x45]) 8 12) Sig.webp
    = false.
Proof.
  destruct what_matching_total as (_ & _ & Hstarts & Hslice). split.
  - apply Hstarts. simpl. lia.
  - apply Hslice; simpl; lia.
Defined.

(** C6.  [RIFF], any four bytes, [WEBP], then anything, is classified as
    webp, as an override prefix and as a bytes source; the rules before webp
    are consulted and fail. *)
Theorem what_webp_any_chunk_size (file : source) (sz rest : bytes) (w : world) :
  length sz = 4 →
  what file (Some (Sig.riff ++ sz ++ Sig.webp ++ rest)) w
  = (Ok (Some Webp),
     add_events w (EvRule <$> [Jpeg; Png; Gif; Bmp; Tiff; Webp]))
  ∧ result (what (SBytes (Sig.riff ++ sz ++ Sig.webp ++ rest)) None w)
    = Ok (Some Webp).
Proof.
  intros Hsz.
  destruct sz as [|s0 [|s1 [|s2 [|s3 [|s4 sz]]]]]; simpl in Hsz; try lia.
  rewrite what_override, what_bytes. done.
Qed.

Lemma what_webp_any_chunk_size_witness :
  what SNone (Some (Sig.riff ++ [xff; xd8; xff; xe0] ++ Sig.webp ++ [])) Examples.bare
  = (Ok (Some Webp),
     add_events Examples.bare (EvRule <$> [Jpeg; Png; Gif; Bmp; Tiff; Webp]))
  ∧ result (what (SBytes (Sig.riff ++ [xff; xd8; xff; xe0] ++ Sig.webp ++ []))
              None Examples.bare)
    = Ok (Some Webp).
Proof. apply what_webp_any_chunk_size. reflexivity. Defined.

(** C7.  A byte sequence of fewer than two bytes is not classified, as an
    override prefix and as a bytes source.  For the empty sequence and for
    the absent source the world, log included, is as before the call: no
    rule is evaluated. *)
Theorem what_short_no_match (b : bytes) (file : source) (w : world) :
  length b < 2 →
  result (what file (Some b) w) = Ok None
  ∧ result (what (SBytes b) None w) = Ok None
  ∧ what file (Some []) w = (Ok None, w)
  ∧ what (SBytes []) None w = (Ok None, w)
  ∧ what SNone None w = (Ok None, w).
Proof.
  intros Hlen. rewrite !what_override, !what_bytes. unfold result; simpl.
  rewrite (classify_short b Hlen), add_events_nil. split_and!; done.
Qed.

Lemma what_short_no_match_witness :
  result (what (SPath "logo.png") (Some [x42]) Examples.on_disk) = Ok None
  ∧ result (what (SBytes [x42]) None Examples.on_disk) = Ok None
  ∧ what (SPath "logo.png") (Some []) Examples.on_disk
    = (Ok None, Examples.on_disk)
  ∧ what (SBytes []) None Examples.on_disk = (Ok None, Examples.on_disk)
  ∧ what SNone None Examples.on_disk = (Ok None, Examples.on_disk).
Proof. apply what_short_no_match. simpl. lia. Defined.

(** C8.  For every byte sequence [X], so for each test vector of section 8,
    [what] with [X] as override prefix returns what it returns on the path
    of a readable file whose first 64 bytes are those of [X]. *)
Theorem what_override_matches_file (X content : bytes) (p : string)
    (file : source) (w : world) :
  fs w !! p = Some (RegularFile content true) →
  take 64 content = take 64 X →
  result (what file (Some X) w) = result (what (SPath p) None w).
Proof.
  intros Hp Hhead. rewrite what_override, what_path, Hp. unfold result; simpl.
  rewrite <-(classify_take 64 X), <-(classify_take 64 content) by lia.
  by rewrite Hhead.
Qed.

Lemma what_override_matches_file_witness :
  result (what SNone (Some (Sig.png ++ [x00; x00; x00; x0d])) Examples.on_disk)
  = result (what (SPath "logo.png") None Examples.on_disk).
Proof.
  apply (what_override_matches_file _ (Sig.png ++ [x00; x00; x00; x0d]));
    reflexivity.
Defined.

(** C9.  With the empty override prefix [what] returns the no-match value
    and the world is as before the call, for every source: nothing is read,
    nothing is logged. *)
Theorem what_empty_override (file : source) (w : world) :
  what file (Some []) w = (Ok None, w).
Proof. rewrite what_override. simpl. by rewrite add_events_nil. Qed.

(** C10.  [what] on an override prefix [b] and on its first 12 bytes are
    the same run: same result, same rules consulted. *)
Theorem what_first_12_bytes (file : source) (b : bytes) (w : world) :
  what file (Some b) w = what file (Some (take 12 b)) w.
Proof.
  rewrite !what_override. by rewrite classify_take, consulted_take by lia.
Qed.

(** * Further properties of the code *)

(** ** The rules exclude one another *)

(** The first byte of a header on which the condition of [l] holds. *)
Lemma rule_cond_head (l : label) (header : bytes) :
  rule_cond l header = true →
  ∃ c rest, header = c :: rest ∧
    match l with
    | Jpeg => c = xff
    | Png => c = x89
    | Gif => c = x47
    | Bmp => c = x42
    | Tiff => c = x49 ∨ c = x4d
    | Webp => c = x52
    | Ico => c = x00
    end.
Proof.
  destruct header as [|c rest]; [by destruct l|].
  intros Hc. exists c, rest. split; [done|].
  destruct l; simpl in Hc;
    rewrite ?orb_true_iff, ?andb_true_iff, ?byte_eqb_eq in Hc;
    tauto.
Qed.

Lemma rule_cond_exclusive (l l' : label) (header : bytes) :
  rule_cond l header = true → rule_cond l' header = true → l = l'.
Proof.
  intros (c & rest & -> & Hc)%rule_cond_head (c' & rest' & [= <- <-] & Hc')%rule_cond_head.
  destruct l, l'; try reflexivity; exfalso;
    repeat match goal with H : _ ∨ _ |- _ => destruct H end;
    congruence.
Qed.

Lemma classify_find (header : bytes) :
  Spec.classify header = List.find (λ l, rule_cond l header) rule_order.
Proof.
  unfold Spec.classify, Spec.rules, Spec.first_match.
  by rewrite spec_jpeg, spec_png, spec_gif, spec_bmp, spec_tiff, spec_webp,
    spec_ico.
Qed.

Lemma classify_Some (header : bytes) (l : label) :
  Spec.classify header = Some l ↔ rule_cond l header = true.
Proof.
  rewrite classify_find. split.
  - intros Hf. by apply List.find_some in Hf as [_ ?].
  - intros Hl. unfold rule_order. cbn [List.find].
    repeat match goal with
           | |- context [if rule_cond ?l' header then _ else _] =>
               destruct (rule_cond l' header) eqn:?;
               [f_equal; by eapply rule_cond_exclusive|]
           end.
    destruct l; congruence.
Qed.

Lemma classify_None (header : bytes) :
  Spec.classify header = None ↔ ∀ l, rule_cond l header = false.
Proof.
  split.
  - intros Hn l. destruct (rule_cond l header) eqn:Hl; [|done].
    apply classify_Some in Hl. congruence.
  - intros Hall. destruct (Spec.classify header) as [l|] eqn:Hl; [|done].
    apply classify_Some in Hl. by rewrite Hall in Hl.
Qed.

Lemma startswith_app_l (s p rest : bytes) :
  startswith s p = true → startswith (s ++ rest) p = true.
Proof.
  rewrite !startswith_prefix. intros [r ->]. exists (r ++ rest).
  by rewrite app_assoc.
Qed.

Lemma slice_eq_app_l (s pat rest : bytes) (lo : nat) :
  bytes_eqb (slice s lo (lo + length pat)) pat = true →
  bytes_eqb (slice (s ++ rest) lo (lo + length pat)) pat = true.
Proof.
  rewrite <-!startswith_slice, drop_app. apply startswith_app_l.
Qed.

Lemma rule_cond_app (l : label) (header rest : bytes) :
  rule_cond l header = true → rule_cond l (header ++ rest) = true.
Proof.
  destruct l; cbn [rule_cond]; rewrite ?orb_true_iff, ?andb_true_iff;
    try (intros [?|?]; [left|right]); try by apply startswith_app_l.
  intros [Hr Hw]. split.
  - by apply (slice_eq_app_l _ Sig.riff _ 0).
  - by apply (slice_eq_app_l _ Sig.webp _ 8).
Qed.

(** X1.  With an override prefix, [what] returns the label [l] exactly when
    the condition of the [if] for [l] holds on the header, and the no-match
    value exactly when no condition holds: as no two conditions hold on
    the same header, the order of the [if]s does not show in the result. *)
Theorem what_label_iff_condition (file : source) (header : bytes) (w : world) :
  (∀ l, result (what file (Some header) w) = Ok (Some l)
        ↔ rule_cond l header = true)
  ∧ (result (what file (Some header) w) = Ok None
     ↔ ∀ l, rule_cond l header = false)
  ∧ (∀ l l', rule_cond l header = true → rule_cond l' header = true → l = l').
Proof.
  rewrite what_override. unfold result; simpl. split_and!.
  - intros l. rewrite <-classify_Some. split; congruence.
  - rewrite <-classify_None. split; congruence.
  - intros l l'. apply rule_cond_exclusive.
Qed.

Lemma what_label_iff_condition_witness :
  result (what SNone (Some (Sig.tiff_be ++ [x00; x00; x00; x08])) Examples.bare)
  = Ok (Some Tiff).
Proof.
  apply (proj1 (what_label_iff_condition SNone
                  (Sig.tiff_be ++ [x00; x00; x00; x08]) Examples.bare)).
  reflexivity.
Defined.

(** X2.  Each signature of the [startswith] rules, followed by any bytes,
    gets its label, as an override prefix and as a bytes source. *)
Theorem what_signature_then_anything (file : source) (rest : bytes) (w : world) :
  let run sig := (result (what file (Some (sig ++ rest)) w),
                  result (what (SBytes (sig ++ rest)) None w)) in
  run Sig.jpeg = (Ok (Some Jpeg), Ok (Some Jpeg))
  ∧ run Sig.png = (Ok (Some Png), Ok (Some Png))
  ∧ run Sig.gif87a = (Ok (Some Gif), Ok (Some Gif))
  ∧ run Sig.gif89a = (Ok (Some Gif), Ok (Some Gif))
  ∧ run Sig.bm = (Ok (Some Bmp), Ok (Some Bmp))
  ∧ run Sig.tiff_le = (Ok (Some Tiff), Ok (Some Tiff))
  ∧ run Sig.tiff_be = (Ok (Some Tiff), Ok (Some Tiff))
  ∧ run Sig.ico = (Ok (Some Ico), Ok (Some Ico)).
Proof.
  cbv beta zeta. rewrite !what_override, !what_bytes. unfold result; simpl.
  split_and!; reflexivity.
Qed.

(** X3.  Bytes that follow a recognised header do not change the answer:
    when [what] returns a label on [header], it returns the same label on
    [header ++ rest]. *)
Theorem what_extension_stable (file file' : source) (header rest : bytes)
    (w w' : world) (l : label) :
  result (what file (Some header) w) = Ok (Some l) →
  result (what file' (Some (header ++ rest)) w') = Ok (Some l).
Proof.
  rewrite !what_override. unfold result; simpl.
  intros [= Hl]. f_equal. apply classify_Some, rule_cond_app.
  by apply classify_Some.
Qed.

Lemma what_extension_stable_witness :
  result (what SNone (Some (Sig.bm ++ [x00; x01])) Examples.on_disk)
  = Ok (Some Bmp).
Proof.
  apply (what_extension_stable SNone SNone Sig.bm [x00; x01]
           Examples.bare Examples.on_disk Bmp).
  reflexivity.
Defined.

(** X4.  A bytes source is treated as an override prefix: [what(b)] and
    [what(anything, h=b)] are the same run, so cutting the source to 64
    bytes loses nothing and nothing of the world is touched. *)
Theorem what_bytes_as_override (file : source) (b : bytes) (w : world) :
  what (SBytes b) None w = what file (Some b) w
  ∧ fs (final (what (SBytes b) None w)) = fs w
  ∧ heap (final (what (SBytes b) None w)) = heap w.
Proof. by rewrite what_bytes, what_override. Qed.

(** ** Every run of [_read_bytes] on a file object *)

(** The run by cases on the object: with or without [seek] and [tell],
    closed or open, readable or not. *)
Lemma read_bytes_file_cases (o : ref) (f : filelike) (w : world) (n : nat) :
  heap w !! o = Some f →
  _read_bytes (SFile o) n w =
  if fl_has_seek f && fl_has_tell f then
    if fl_closed f then (Ok [], add_events w [EvTell o])
    else if fl_readable f then
      (Ok (take n (fl_data f)),
       add_events w [EvTell o; EvSeek o 0; EvRead o n; EvSeek o (fl_pos f)])
    else
      (Ok [],
       set_heap (add_events w [EvTell o; EvSeek o 0; EvRead o n])
         (<[o := set_pos f 0]> (heap w)))
  else
    if fl_closed f then (Ok [], add_events w [EvRead o n])
    else if fl_readable f then
      let data := take n (drop (fl_pos f) (fl_data f)) in
      (Ok data,
       set_heap (add_events w [EvRead o n])
         (<[o := set_pos f (fl_pos f + length data)]> (heap w)))
    else (Ok [], add_events w [EvRead o n]).
Proof.
  intros Hobj.
  destruct (fl_has_seek f && fl_has_tell f) eqn:Hst.
  - apply andb_true_iff in Hst as [Hseek Htell].
    destruct (fl_closed f) eqn:Hcl; [|destruct (fl_readable f) eqn:Hrd].
    + unfold_io. by rewrite Hobj, Hseek, Htell; simpl; rewrite Hobj, Htell, Hcl.
    + by apply read_bytes_seekable.
    + by apply read_bytes_unreadable.
  - unfold_io. rewrite Hobj, Hst; simpl. rewrite Hobj.
    destruct (fl_closed f) eqn:Hcl; [done|]. simpl.
    destruct (fl_readable f) eqn:Hrd; [|done]. simpl.
    by rewrite or_empty_id.
Qed.

Lemma read_bytes_file_dangling (o : ref) (w : world) (n : nat) :
  heap w !! o = None → _read_bytes (SFile o) n w = (Ok [], w).
Proof. intros Hobj. unfold_io. by rewrite Hobj. Qed.

(** ** What [_read_bytes] and [what] do to their environment *)

(** X5.  [_read_bytes] never returns more than the [n] bytes asked for,
    whatever the source; the header [what] reads has at most 64 bytes. *)
Theorem read_bytes_bounded (file : source) (n : nat) (w : world) (data : bytes) :
  result (_read_bytes file n w) = Ok data → length data ≤ n.
Proof.
  destruct file as [|b|p|o].
  - intros [= <-]. simpl. lia.
  - intros [= <-]. rewrite length_take. lia.
  - rewrite read_bytes_path. unfold result; simpl.
    destruct (fs w !! p) as [[|content []]|]; intros [= <-].
    rewrite length_take. lia.
  - destruct (heap w !! o) as [f|] eqn:Hobj.
    + rewrite (read_bytes_file_cases o f w n Hobj).
      destruct (fl_has_seek f && fl_has_tell f), (fl_closed f),
        (fl_readable f); unfold result; simpl; intros [= <-];
        rewrite ?length_take; simpl; lia.
    + rewrite (read_bytes_file_dangling o w n Hobj). intros [= <-]. simpl. lia.
Qed.

Lemma read_bytes_bounded_witness :
  length (Sig.gif89a ++ [x01; x00]) ≤ 8.
Proof.
  apply (read_bytes_bounded (SFile 0) 8 Examples.reading).
  reflexivity.
Defined.



Lemma calls_log (w w' : world) (es : list event) (ls : list label) :
  log w' = log w ++ es ++ (EvRule <$> ls) →
  Forall (λ e, is_io e = true) es →
  calls w w' = es.
Proof.
  intros Hlog Hes. unfold calls.
  rewrite Hlog, drop_app_length, filter_app. clear Hlog.
  replace (filter _ (EvRule <$> ls)) with (@nil event).
  - rewrite app_nil_r. induction Hes as [|e es He _ IH]; [done|].
    rewrite filter_cons_True by done. by rewrite IH.
  - induction ls as [|l ls IH]; [done|].
    rewrite fmap_cons, filter_cons_False; [done|]. simpl. congruence.
Qed.

(** X7.  On a readable regular file [what] answers as on the bytes of its
    content, and leaves filesystem and heap as they were; the only call on
    the environment is the [open]. *)
Theorem what_readable_file (p : string) (content : bytes) (w : world) :
  fs w !! p = Some (RegularFile content true) →
  let r := what (SPath p) None w in
  result r = result (what (SBytes content) None w)
  ∧ fs (final r) = fs w ∧ heap (final r) = heap w
  ∧ calls w (final r) = [EvOpen p].
Proof.
  intros Hp. cbv zeta. rewrite what_path, Hp, what_bytes.
  unfold result, final; simpl. split_and!; [done..|].
  by apply (calls_log _ _ _ (Spec.consulted content)); [|repeat constructor].
Qed.

Lemma what_readable_file_witness :
  let r := what (SPath "logo.png") None Streams.busy in
  result r
  = result (what (SBytes (Sig.png ++ [x00; x00; x00; x0d])) None Streams.busy)
  ∧ fs (final r) = fs Streams.busy ∧ heap (final r) = heap Streams.busy
  ∧ calls Streams.busy (final r) = [EvOpen "logo.png"].
Proof. apply what_readable_file. reflexivity. Defined.



(** X9.  On an open, readable object that lacks [seek] or [tell], [what]
    reads from where the object stands and does not go back: it answers as
    on the bytes from the current offset on, the only call is one [read] of
    64 bytes, and the object has advanced by the number of bytes read, at
    most 64. *)
Theorem what_unseekable_consumes (o : ref) (f : filelike) (w : world) :
  heap w !! o = Some f →
  fl_has_seek f && fl_has_tell f = false →
  fl_closed f = false → fl_readable f = true →
  let r := what (SFile o) None w in
  let ahead := drop (fl_pos f) (fl_data f) in
  result r = result (what (SBytes ahead) None w)
  ∧ calls w (final r) = [EvRead o 64]
  ∧ heap (final r)
    = <[o := set_pos f (fl_pos f + length ahead `min` 64)]> (heap w)
  ∧ fs (final r) = fs w.
Proof.
  intros Hobj Hst Hopen Hrd. cbv zeta.
  rewrite what_run, what_bytes. unfold get_header.
  rewrite (read_bytes_file_cases o f w 64 Hobj), Hst, Hopen, Hrd.
  cbv beta iota zeta. rewrite classify_take by lia.
  unfold result, final; simpl. split_and!; [done| |..].
  - apply (calls_log _ _ _ (Spec.consulted (drop (fl_pos f) (fl_data f))));
      [|by repeat constructor].
    simpl. by rewrite consulted_take, <-app_assoc by lia.
  - by rewrite length_take, Nat.min_comm.
  - done.
Qed.

Lemma what_unseekable_consumes_witness :
  let r := what (SFile 7) None Streams.piping in
  let ahead := drop (fl_pos Streams.pipe) (fl_data Streams.pipe) in
  result r = result (what (SBytes ahead) None Streams.piping)
  ∧ calls Streams.piping (final r) = [EvRead 7 64]
  ∧ heap (final r)
    = <[7 := set_pos Streams.pipe (fl_pos Streams.pipe + length ahead `min` 64)]>
        (heap Streams.piping)
  ∧ fs (final r) = fs Streams.piping.
Proof. apply what_unseekable_consumes; reflexivity. Defined.

(** X10.  On a closed object [what] returns the no-match value after one
    failed call ([tell] when the object has [seek] and [tell], [read]
    otherwise), and heap and filesystem are as before. *)
Theorem what_closed_object (o : ref) (f : filelike) (w : world) :
  heap w !! o = Some f → fl_closed f = true →
  let r := what (SFile o) None w in
  result r = Ok None
  ∧ heap (final r) = heap w ∧ fs (final r) = fs w
  ∧ calls w (final r)
    = [if fl_has_seek f && fl_has_tell f then EvTell o else EvRead o 64].
Proof.
  intros Hobj Hcl. cbv zeta. rewrite what_run. unfold get_header.
  rewrite (read_bytes_file_cases o f w 64 Hobj), Hcl.
  destruct (fl_has_seek f && fl_has_tell f);
    unfold result, final; simpl; (split_and!; [done..|]);
    by apply (calls_log _ _ _ []); [simpl; rewrite app_nil_r|repeat constructor].
Qed.

Lemma what_closed_object_witness :
  let r := what (SFile 0) None Examples.after_close in
  result r = Ok None
  ∧ heap (final r) = heap Examples.after_close
  ∧ fs (final r) = fs Examples.after_close
  ∧ calls Examples.after_close (final r)
    = [if fl_has_seek Examples.closed_stream && fl_has_tell Examples.closed_stream
       then EvTell 0 else EvRead 0 64].
Proof. apply what_closed_object; reflexivity. Defined.

(** The world after [_read_bytes] on a file object: the log has grown, and at
    most the position of that object has changed. *)
Lemma read_bytes_file_world (o : ref) (w : world) (n : nat) :
  ∃ es,
    final (_read_bytes (SFile o) n w) = add_events w es
    ∨ ∃ f p, heap w !! o = Some f
             ∧ final (_read_bytes (SFile o) n w)
               = set_heap (add_events w es) (<[o := set_pos f p]> (heap w)).
Proof.
  destruct (heap w !! o) as [f|] eqn:Hobj.
  - rewrite (read_bytes_file_cases o f w n Hobj).
    destruct (fl_has_seek f && fl_has_tell f), (fl_closed f),
      (fl_readable f); unfold final; simpl; eauto 6.
  - rewrite (read_bytes_file_dangling o w n Hobj). exists [].
    left. by rewrite add_events_nil.
Qed.

Lemma get_header_world (file : source) (h : option bytes) (w : world) :
  ∃ es,
    final (get_header file h w) = add_events w es
    ∨ ∃ o f p, file = SFile o ∧ h = None ∧ heap w !! o = Some f
               ∧ final (get_header file h w)
                 = set_heap (add_events w es) (<[o := set_pos f p]> (heap w)).
Proof.
  destruct h as [h|]; [exists []; left; by rewrite add_events_nil|].
  destruct file as [|b|p|o]; simpl.
  - exists []. left. by rewrite add_events_nil.
  - exists []. left. by rewrite add_events_nil.
  - exists [EvOpen p]. left. change (open_read p 64) with (_read_bytes (SPath p) 64).
    by rewrite read_bytes_path.
  - destruct (read_bytes_file_world o w 64) as [es [Hw|(f & p & Hobj & Hw)]];
      exists es; [by left|]. right. by exists o, f, p.
Qed.

(** X11.  [what] writes nothing: for every source and override prefix the
    filesystem is as before, no object appears in or disappears from the
    heap, an object keeps its content and its flags and can differ in its
    position only, and an object other than the source (any object, when an
    override prefix is given) is as before; the log is only extended. *)
Theorem what_frame (file : source) (h : option bytes) (w : world) :
  let w' := final (what file h w) in
  fs w' = fs w
  ∧ (∀ o, match heap w !! o, heap w' !! o with
          | Some f, Some f' => f' = set_pos f (fl_pos f')
          | None, None => True
          | _, _ => False
          end)
  ∧ (∀ o, file ≠ SFile o ∨ is_Some h → heap w' !! o = heap w !! o)
  ∧ log w `prefix_of` log w'.
Proof.
  cbv zeta. rewrite what_run.
  destruct (get_header_world file h w) as [es Hw].
  destruct (get_header file h w) as [[header|e] w1]; unfold final in *;
    simpl in *.
  all: destruct Hw as [->|(o1 & f1 & p1 & -> & -> & Hobj & ->)]; simpl.
  all: split_and!;
    [ done
    | intros o; try (destruct (decide (o = o1)) as [->|Hne];
        [rewrite lookup_insert_eq, Hobj; done
        |rewrite lookup_insert_ne by done]);
      by destruct (heap w !! o) as [[]|]
    | intros o Ho; try (rewrite lookup_insert_ne;
        [done | destruct Ho as [Ho|[? [=]]]; congruence]); done
    | rewrite <-?app_assoc; by apply prefix_app_r ].
Qed.

Lemma what_frame_witness :
  heap (final (what (SFile 7) None Streams.busy)) !! 0
  = heap Streams.busy !! 0.
Proof.
  apply (what_frame (SFile 7) None Streams.busy). left. discriminate.
Defined.

(** ** How long a recognised header is *)

Lemma startswith_length (s p : bytes) :
  startswith s p = true → length p ≤ length s.
Proof.
  intros Hs. destruct (decide (length p ≤ length s)) as [|Hlt]; [done|].
  rewrite startswith_short in Hs by lia. done.
Qed.

(** X12.  A header that gets a label is at least as long as the pattern
    that identifies it: 3 bytes for jpeg, 8 for png, 6 for gif, 2 for bmp,
    4 for tiff and ico, and 12 for webp, whose second pattern ends at
    offset 11. *)
Theorem what_label_needs_length (file : source) (header : bytes) (w : world)
    (l : label) :
  result (what file (Some header) w) = Ok (Some l) →
  match l with
  | Jpeg => 3
  | Png => 8
  | Gif => 6
  | Bmp => 2
  | Tiff | Ico => 4
  | Webp => 12
  end ≤ length header.
Proof.
  rewrite what_override. unfold result; simpl. intros [= Hl].
  apply classify_Some in Hl.
  destruct l; cbn [rule_cond] in Hl;
    rewrite ?orb_true_iff, ?andb_true_iff in Hl.
  - by apply startswith_length in Hl.
  - by apply startswith_length in Hl.
  - by destruct Hl as [Hl|Hl]; apply startswith_length in Hl.
  - by apply startswith_length in Hl.
  - by destruct Hl as [Hl|Hl]; apply startswith_length in Hl.
  - destruct Hl as [_ Hl].
    destruct (decide (12 ≤ length header)) as [|Hlt]; [done|].
    rewrite (slice_short header Sig.webp 8 12) in Hl by (simpl; lia). done.
  - by apply startswith_length in Hl.
Qed.

Lemma what_label_needs_length_witness :
  12 ≤ length (Sig.riff ++ [x1a; x00; x00; x00] ++ Sig.webp ++ [x56; x50; x38]).
Proof.
  apply (what_label_needs_length SNone _ Examples.bare Webp). reflexivity.
Defined.
